(** * language.h: the localisation header of the weather station

    The header holds two alternative sets of global string constants
    (weekday names, month names, eight UI labels), one French and one
    English, and picks one of them with [#ifdef LANGUAGE_FR ... #else ...
    #endif].  Lines 2-3 are the selector: two [#define] lines of which the
    user uncomments one.

    The embedding is shallow: a C string literal is a [string] (its bytes,
    so that an accented letter takes two of them), an array of
    [const char *] is a [list string], the set of globals the header
    declares is a record with the C names as fields, the preprocessor's
    macro table is a finite set of names, and [#ifdef] is [if].  What a
    client does with the globals is a list of statements, reads and
    assignments to the pointers, run with the globals passed along. *)

From Stdlib Require Import ZArith String List Lia.
From stdpp Require Import base decidable option list gmap strings.

Local Open Scope string_scope.
Local Open Scope Z_scope.

(** ** Preprocessor state *)

(** [#define m]: the macro [m] joins the macros already defined. *)
Definition define (m : string) (D : gset string) : gset string := {[ m ]} ∪ D.

(** [#ifdef m]: is [m] defined at this point? *)
Definition ifdef (m : string) (D : gset string) : bool := bool_decide (m ∈ D).

(** ** The globals of the header *)

Record globals := {
  days : list string;
  months : list string;
  today_text : string;
  forecast_text : string;
  ha_sensor_text : string;
  crypto_text : string;
  battery_text : string;
  indoor_text : string;
  outdoor_text : string;
  other_text : string
}.

(** Lines 7-16, the [#ifdef LANGUAGE_FR] branch. *)
Definition french : globals := {|
  days := [ "Dimanche"; "Lundi"; "Mardi"; "Mercredi"; "Jeudi"; "Vendredi"; "Samedi" ];
  months := [ "Janvier"; "Février"; "Mars"; "Avril"; "Mai"; "Juin"; "Juillet"; "Août"; "Septembre"; "Octobre"; "Novembre"; "Décembre" ];
  today_text := "Aujourd'hui";
  forecast_text := "Previsions";
  ha_sensor_text := "Capteurs Home Assistant";
  crypto_text := "Crypto";
  battery_text := "Batterie";
  indoor_text := "Interieur";
  outdoor_text := "Exterieur";
  other_text := "Serre"
|}.

(** Lines 19-28, the [#else] branch. *)
Definition english : globals := {|
  days := [ "Sunday"; "Monday"; "Tuesday"; "Wednesday"; "Thursday"; "Friday"; "Saturday" ];
  months := [ "January"; "February"; "March"; "April"; "May"; "June"; "July"; "August"; "September"; "October"; "November"; "December" ];
  today_text := "Today";
  forecast_text := "Forecast";
  ha_sensor_text := "Home Assistant sensors";
  crypto_text := "Crypto";
  battery_text := "Battery";
  indoor_text := "Indoor";
  outdoor_text := "Outdoor";
  other_text := "Other"
|}.

(** ** The selector, lines 2-3

    Each of the two [#define] lines is either active or commented out. *)
Record selector := {
  fr_line : bool;   (* line 2: [#define LANGUAGE_FR] is uncommented *)
  en_line : bool    (* line 3: [#define LANGUAGE_EN] is uncommented *)
}.

(** The header as it is in the repository: line 2 active, line 3 a comment. *)
Definition shipped : selector := {| fr_line := true; en_line := false |}.

Definition define_line (active : bool) (m : string) (D : gset string) : gset string :=
  if active then define m D else D.

(** The macros defined when line 5 is reached, from the macros [D0] that
    were defined before the header was included. *)
Definition selector_block (s : selector) (D0 : gset string) : gset string :=
  define_line (en_line s) "LANGUAGE_EN" (define_line (fr_line s) "LANGUAGE_FR" D0).

(** Lines 5-29: [#ifdef LANGUAGE_FR] ... [#else] ... [#endif]. *)
Definition conditional_block (D : gset string) : globals :=
  if ifdef "LANGUAGE_FR" D then french else english.

(** The whole header: the globals a translation unit gets by including it. *)
Definition language_h (s : selector) (D0 : gset string) : globals :=
  conditional_block (selector_block s D0).

(** ** Locales *)

Inductive locale := FR | EN.

(** "Uncomment the language you want": the line of the wanted language is
    active and the other one is commented out. *)
Definition select (L : locale) : selector :=
  match L with
  | FR => {| fr_line := true; en_line := false |}
  | EN => {| fr_line := false; en_line := true |}
  end.

(** The globals of a build that selects [L] and defines nothing else. *)
Definition table (L : locale) : globals := language_h (select L) ∅.

(** The locale a set of macros asks for: exactly one of the two macros is
    defined.  Neither or both is no selection of a locale. *)
Definition selected (D : gset string) : option locale :=
  match ifdef "LANGUAGE_FR" D, ifdef "LANGUAGE_EN" D with
  | true, false => Some FR
  | false, true => Some EN
  | _, _ => None
  end.

(** The globals of each branch, by locale. *)
Definition branch (L : locale) : globals :=
  match L with FR => french | EN => english end.

(** The branch the header takes. *)
Definition active_locale (s : selector) (D0 : gset string) : locale :=
  if ifdef "LANGUAGE_FR" (selector_block s D0) then FR else EN.

(** ** Reading the globals *)

(** The eight label globals. *)
Inductive label :=
  | Today | Forecast | HaSensor | Crypto | Battery | Indoor | Outdoor | Other.

Definition labels : list label :=
  [ Today; Forecast; HaSensor; Crypto; Battery; Indoor; Outdoor; Other ].

Definition label_text (l : label) (g : globals) : string :=
  match l with
  | Today => today_text g
  | Forecast => forecast_text g
  | HaSensor => ha_sensor_text g
  | Crypto => crypto_text g
  | Battery => battery_text g
  | Indoor => indoor_text g
  | Outdoor => outdoor_text g
  | Other => other_text g
  end.

(** [a[i]] for an [int] index: the element when [0 <= i < N], and no value
    outside the array (the C standard leaves that access undefined). *)
Definition subscript (a : list string) (i : Z) : option string :=
  if bool_decide (0 ≤ i < Z.of_nat (length a)) then a !! Z.to_nat i else None.

(** The expressions a client of the header evaluates. *)
Inductive access :=
  | Days (i : Z)        (* days[i] *)
  | Months (i : Z)      (* months[i] *)
  | Label (l : label).  (* today_text, forecast_text, ... *)

Definition read (a : access) (g : globals) : option string :=
  match a with
  | Days i => subscript (days g) i
  | Months i => subscript (months g) i
  | Label l => Some (label_text l g)
  end.

(** Every string of the globals: 7 + 12 + 8. *)
Definition strings (g : globals) : list string :=
  days g ++ months g ++ map (λ l, label_text l g) labels.

(** The caller's contract: an index into [days] is 0..6, into [months] 0..11. *)
Definition valid (a : access) : Prop :=
  match a with
  | Days i => 0 ≤ i < 7
  | Months i => 0 ≤ i < 12
  | Label _ => True
  end.

(** ** What a client may do with the globals

    The twenty declarations all have the one form [const char *name] or
    [const char *name[]]: [const] qualifies the characters pointed to, and
    nothing qualifies the pointer. *)
Record declarator := {
  const_chars : bool;     (* [const char] *)
  const_pointer : bool    (* [* const] *)
}.

Definition declared : declarator := {| const_chars := true; const_pointer := false |}.

(** The statements of a client on the globals: a use of the value, and an
    assignment of another string to the pointer. *)
Inductive stmt :=
  | Read (a : access)                  (* ... = days[i]; ... = today_text; *)
  | Assign (a : access) (p : string).  (* days[i] = p; today_text = p; *)

(** The compiler accepts an assignment to an lvalue whose type is not
    const-qualified, here the pointer. *)
Definition accepted (t : declarator) (st : stmt) : bool :=
  match st with
  | Read _ => true
  | Assign _ _ => negb (const_pointer t)
  end.

(** [a[i] = p]: the element is replaced when [0 <= i < N]; outside the
    array the store is undefined. *)
Definition store (a : list string) (i : Z) (p : string) : option (list string) :=
  if bool_decide (0 ≤ i < Z.of_nat (length a)) then Some (<[Z.to_nat i := p]> a) else None.

Definition set_days (d : list string) (g : globals) : globals :=
  {| days := d; months := months g; today_text := today_text g;
     forecast_text := forecast_text g; ha_sensor_text := ha_sensor_text g;
     crypto_text := crypto_text g; battery_text := battery_text g;
     indoor_text := indoor_text g; outdoor_text := outdoor_text g;
     other_text := other_text g |}.

Definition set_months (m : list string) (g : globals) : globals :=
  {| days := days g; months := m; today_text := today_text g;
     forecast_text := forecast_text g; ha_sensor_text := ha_sensor_text g;
     crypto_text := crypto_text g; battery_text := battery_text g;
     indoor_text := indoor_text g; outdoor_text := outdoor_text g;
     other_text := other_text g |}.

#[global] Instance label_eq_dec : EqDecision label.
Proof. solve_decision. Defined.

(** [today_text = p], [forecast_text = p], ...: the one pointer named is
    replaced, the others are kept. *)
Definition set_label (l : label) (p : string) (g : globals) : globals :=
  let pick (l' : label) : string :=
    if bool_decide (l' = l) then p else label_text l' g in
  {| days := days g; months := months g; today_text := pick Today;
     forecast_text := pick Forecast; ha_sensor_text := pick HaSensor;
     crypto_text := pick Crypto; battery_text := pick Battery;
     indoor_text := pick Indoor; outdoor_text := pick Outdoor;
     other_text := pick Other |}.

Definition assign (a : access) (p : string) (g : globals) : option globals :=
  match a with
  | Days i => d ← store (days g) i p; Some (set_days d g)
  | Months i => m ← store (months g) i p; Some (set_months m g)
  | Label l => Some (set_label l p g)
  end.

(** A client's statements, one after the other: the globals after the last
    one and the strings read, in order.  It stops at a statement that is
    undefined. *)
Fixpoint execute (prog : list stmt) (g : globals) : option (globals * list string) :=
  match prog with
  | [] => Some (g, [])
  | Read a :: rest =>
      s ← read a g;
      '(g', out) ← execute rest g;
      Some (g', s :: out)
  | Assign a p :: rest =>
      g1 ← assign a p g;
      execute rest g1
  end.

(** Compiled against declarations of type [t], then run. *)
Definition client (t : declarator) (prog : list stmt) (g : globals)
    : option (globals * list string) :=
  if forallb (accepted t) prog then execute prog g else None.

(** The access of a statement; the caller's contract asks it to be [valid]. *)
Definition stmt_access (st : stmt) : access :=
  match st with Read a | Assign a _ => a end.

(** The program assigns nothing to [a]. *)
Definition untouched (a : access) (prog : list stmt) : Prop :=
  ∀ p : string, Assign a p ∉ prog.

(** The arrays have the sizes the header gives them. *)
Definition sized (g : globals) : Prop :=
  length (days g) = 7%nat ∧ length (months g) = 12%nat.

(** Every statement of the program keeps the caller's contract. *)
Definition in_contract (prog : list stmt) : Prop :=
  Forall (λ st, valid (stmt_access st)) prog.

(** ** The calendar, for reference

    The order the names are expected in: weekdays counted from Sunday,
    months counted from January. *)
Inductive weekday :=
  | Sunday | Monday | Tuesday | Wednesday | Thursday | Friday | Saturday.

Inductive month :=
  | January | February | March | April | May | June
  | July | August | September | October | November | December.

Definition weekday_index (d : weekday) : Z :=
  match d with
  | Sunday => 0 | Monday => 1 | Tuesday => 2 | Wednesday => 3
  | Thursday => 4 | Friday => 5 | Saturday => 6
  end.

Definition month_index (m : month) : Z :=
  match m with
  | January => 0 | February => 1 | March => 2 | April => 3
  | May => 4 | June => 5 | July => 6 | August => 7
  | September => 8 | October => 9 | November => 10 | December => 11
  end.

Definition weekday_name (L : locale) (d : weekday) : string :=
  match L, d with
  | FR, Sunday => "Dimanche" | EN, Sunday => "Sunday"
  | FR, Monday => "Lundi" | EN, Monday => "Monday"
  | FR, Tuesday => "Mardi" | EN, Tuesday => "Tuesday"
  | FR, Wednesday => "Mercredi" | EN, Wednesday => "Wednesday"
  | FR, Thursday => "Jeudi" | EN, Thursday => "Thursday"
  | FR, Friday => "Vendredi" | EN, Friday => "Friday"
  | FR, Saturday => "Samedi" | EN, Saturday => "Saturday"
  end.

Definition month_name (L : locale) (m : month) : string :=
  match L, m with
  | FR, January => "Janvier" | EN, January => "January"
  | FR, February => "Février" | EN, February => "February"
  | FR, March => "Mars" | EN, March => "March"
  | FR, April => "Avril" | EN, April => "April"
  | FR, May => "Mai" | EN, May => "May"
  | FR, June => "Juin" | EN, June => "June"
  | FR, July => "Juillet" | EN, July => "July"
  | FR, August => "Août" | EN, August => "August"
  | FR, September => "Septembre" | EN, September => "September"
  | FR, October => "Octobre" | EN, October => "October"
  | FR, November => "Novembre" | EN, November => "November"
  | FR, December => "Décembre" | EN, December => "December"
  end.

(** ** The declarations, as written

    The same lines once more, declaration by declaration with the
    identifier each one introduces: [const char *name[] = { ... };]
    declares an array whose size is the number of initialisers, and
    [const char *name = "...";] declares one pointer to a string. *)
Inductive decl :=
  | ArrayDecl (name : string) (init : list string)
  | PointerDecl (name : string) (init : string).

Definition decl_name (d : decl) : string :=
  match d with ArrayDecl n _ | PointerDecl n _ => n end.

(** What a client needs to know of a declaration to use it: its
    identifier, and whether it is subscripted or read as it is. *)
Inductive shape := ArrayOfStrings | OneString.

Definition decl_shape (d : decl) : shape :=
  match d with ArrayDecl _ _ => ArrayOfStrings | PointerDecl _ _ => OneString end.

(** Lines 7-16. *)
Definition french_decls : list decl := [
  ArrayDecl "days" [ "Dimanche"; "Lundi"; "Mardi"; "Mercredi"; "Jeudi"; "Vendredi"; "Samedi" ];
  ArrayDecl "months" [ "Janvier"; "Février"; "Mars"; "Avril"; "Mai"; "Juin"; "Juillet"; "Août"; "Septembre"; "Octobre"; "Novembre"; "Décembre" ];
  PointerDecl "today_text" "Aujourd'hui";
  PointerDecl "forecast_text" "Previsions";
  PointerDecl "ha_sensor_text" "Capteurs Home Assistant";
  PointerDecl "crypto_text" "Crypto";
  PointerDecl "battery_text" "Batterie";
  PointerDecl "indoor_text" "Interieur";
  PointerDecl "outdoor_text" "Exterieur";
  PointerDecl "other_text" "Serre"
].

(** Lines 19-28. *)
Definition english_decls : list decl := [
  ArrayDecl "days" [ "Sunday"; "Monday"; "Tuesday"; "Wednesday"; "Thursday"; "Friday"; "Saturday" ];
  ArrayDecl "months" [ "January"; "February"; "March"; "April"; "May"; "June"; "July"; "August"; "September"; "October"; "November"; "December" ];
  PointerDecl "today_text" "Today";
  PointerDecl "forecast_text" "Forecast";
  PointerDecl "ha_sensor_text" "Home Assistant sensors";
  PointerDecl "crypto_text" "Crypto";
  PointerDecl "battery_text" "Battery";
  PointerDecl "indoor_text" "Indoor";
  PointerDecl "outdoor_text" "Outdoor";
  PointerDecl "other_text" "Other"
].

(** Lines 5-29 and the whole header, as the declarations that are left
    after preprocessing. *)
Definition conditional_decls (D : gset string) : list decl :=
  if ifdef "LANGUAGE_FR" D then french_decls else english_decls.

Definition language_h_decls (s : selector) (D0 : gset string) : list decl :=
  conditional_decls (selector_block s D0).

(** An identifier used by a client resolves to the declaration of that
    name, if there is one and it has the shape the use needs. *)
Fixpoint find_array (n : string) (ds : list decl) : option (list string) :=
  match ds with
  | [] => None
  | ArrayDecl m init :: rest => if bool_decide (m = n) then Some init else find_array n rest
  | PointerDecl m _ :: rest => if bool_decide (m = n) then None else find_array n rest
  end.

Fixpoint find_pointer (n : string) (ds : list decl) : option string :=
  match ds with
  | [] => None
  | PointerDecl m init :: rest => if bool_decide (m = n) then Some init else find_pointer n rest
  | ArrayDecl m _ :: rest => if bool_decide (m = n) then None else find_pointer n rest
  end.

(** The values of the ten identifiers the display code uses, when all of
    them resolve. *)
Definition resolve (ds : list decl) : option globals :=
  d ← find_array "days" ds;
  m ← find_array "months" ds;
  t ← find_pointer "today_text" ds;
  f ← find_pointer "forecast_text" ds;
  h ← find_pointer "ha_sensor_text" ds;
  c ← find_pointer "crypto_text" ds;
  b ← find_pointer "battery_text" ds;
  i ← find_pointer "indoor_text" ds;
  o ← find_pointer "outdoor_text" ds;
  x ← find_pointer "other_text" ds;
  Some {| days := d; months := m; today_text := t; forecast_text := f;
          ha_sensor_text := h; crypto_text := c; battery_text := b;
          indoor_text := i; outdoor_text := o; other_text := x |}.

(** ** Bytes and places *)

(** A string of 7-bit characters only: no byte of it is 128 or more. *)
Fixpoint all_ascii (s : string) : bool :=
  match s with
  | EmptyString => true
  | String c rest => (Ascii.nat_of_ascii c <? 128)%nat && all_ascii rest
  end.

Definition label_place (l : label) : nat :=
  match l with
  | Today => 0 | Forecast => 1 | HaSensor => 2 | Crypto => 3
  | Battery => 4 | Indoor => 5 | Outdoor => 6 | Other => 7
  end.

(** Where the string of an access is in [strings]. *)
Definition place (a : access) : nat :=
  match a with
  | Days i => Z.to_nat i
  | Months i => 7 + Z.to_nat i
  | Label l => 19 + label_place l
  end.

(** * Properties *)

(** ** The preprocessor *)

Lemma ifdef_true m D : ifdef m D = true ↔ m ∈ D.
Proof. unfold ifdef. apply bool_decide_eq_true. Qed.

Lemma ifdef_false m D : ifdef m D = false ↔ m ∉ D.
Proof. unfold ifdef. apply bool_decide_eq_false. Qed.

Lemma ifdef_define m D : ifdef m (define m D) = true.
Proof. apply ifdef_true. unfold define. set_solver. Qed.

Lemma ifdef_define_ne m m' D : m ≠ m' → ifdef m (define m' D) = ifdef m D.
Proof.
  intros Hne. unfold ifdef, define. apply bool_decide_ext.
  rewrite elem_of_union, elem_of_singleton.
  split; [intros [Heq | Hin]; [by destruct Hne | done] | by right].
Qed.

Lemma ifdef_define_line m m' b D :
  m ≠ m' → ifdef m (define_line b m' D) = ifdef m D.
Proof. intros Hne. destruct b; simpl; [by apply ifdef_define_ne | done]. Qed.

(** Line 3 has no part in the test of line 5. *)
Lemma ifdef_FR_selector_block s D0 :
  ifdef "LANGUAGE_FR" (selector_block s D0) = fr_line s || ifdef "LANGUAGE_FR" D0.
Proof.
  unfold selector_block. rewrite ifdef_define_line; [| done].
  destruct (fr_line s); simpl; [apply ifdef_define | done].
Qed.

Lemma ifdef_EN_selector_block s D0 :
  ifdef "LANGUAGE_EN" (selector_block s D0) = en_line s || ifdef "LANGUAGE_EN" D0.
Proof.
  unfold selector_block. destruct (en_line s); simpl.
  - apply ifdef_define.
  - by rewrite ifdef_define_line.
Qed.

(** ** The two branches *)

Lemma language_h_branch s D0 : language_h s D0 = branch (active_locale s D0).
Proof.
  unfold language_h, conditional_block, active_locale.
  by destruct (ifdef "LANGUAGE_FR" (selector_block s D0)).
Qed.

Lemma language_h_cases s D0 : language_h s D0 = french ∨ language_h s D0 = english.
Proof. rewrite language_h_branch. destruct (active_locale s D0); auto. Qed.

Lemma french_ne_english : french ≠ english.
Proof. discriminate. Qed.

Lemma active_locale_select L : active_locale (select L) ∅ = L.
Proof. by destruct L; vm_compute. Qed.

Lemma table_branch L : table L = branch L.
Proof. unfold table. by rewrite language_h_branch, active_locale_select. Qed.

(** A property of both branches holds of the header, whatever the selection. *)
Lemma language_h_ind (P : globals → Prop) :
  P french → P english → ∀ s D0, P (language_h s D0).
Proof. intros HF HE s D0. destruct (language_h_cases s D0) as [-> | ->]; done. Qed.

(** ** Subscripts *)

Lemma subscript_in_range (a : list string) (i : Z) :
  0 ≤ i < Z.of_nat (length a) →
  ∃ s, subscript a i = Some s ∧ a !! Z.to_nat i = Some s.
Proof.
  intros Hi. unfold subscript. rewrite bool_decide_eq_true_2 by done.
  destruct (lookup_lt_is_Some_2 a (Z.to_nat i)) as [s Hs]; [lia |].
  exists s. by rewrite Hs.
Qed.

Lemma subscript_out_of_range (a : list string) (i : Z) :
  ¬ (0 ≤ i < Z.of_nat (length a)) → subscript a i = None.
Proof. intros Hi. unfold subscript. by rewrite bool_decide_eq_false_2. Qed.

Lemma subscript_is_Some (a : list string) (i : Z) :
  is_Some (subscript a i) ↔ 0 ≤ i < Z.of_nat (length a).
Proof.
  split.
  - intros [s Hs]. destruct (decide (0 ≤ i < Z.of_nat (length a))) as [|Hn]; [done |].
    by rewrite subscript_out_of_range in Hs.
  - intros Hi. destruct (subscript_in_range a i Hi) as (s & Hs & _). by exists s.
Qed.

(** ** Runs of reads *)

Lemma read_valid (a : access) (s : selector) (D0 : gset string) :
  valid a → is_Some (read a (language_h s D0)).
Proof.
  intros Hv. pattern (language_h s D0). apply language_h_ind;
    destruct a as [i | i | l]; simpl in *;
    try (apply subscript_is_Some; simpl; lia); by eexists.
Qed.

(** ** Selections *)

(** A selection of a locale makes the header take that locale's branch. *)
Lemma selected_active_locale s D0 L :
  selected (selector_block s D0) = Some L → active_locale s D0 = L.
Proof.
  unfold selected, active_locale.
  destruct (ifdef "LANGUAGE_FR" (selector_block s D0)),
    (ifdef "LANGUAGE_EN" (selector_block s D0)); by intros [= <-].
Qed.

Lemma selected_select L : selected (selector_block (select L) ∅) = Some L.
Proof. by destruct L; vm_compute. Qed.

Lemma labels_complete (l : label) : l ∈ labels.
Proof. unfold labels. destruct l; set_solver. Qed.

Lemma strings_length (s : selector) (D0 : gset string) :
  length (strings (language_h s D0)) = 27%nat.
Proof. pattern (language_h s D0). by apply language_h_ind. Qed.

(** * The claims *)

(** C1: for each supported locale, FR and EN, the weekday-name table has
    exactly 7 entries and the month-name table exactly 12; and the header
    declares arrays of these sizes under every setting of the selector. *)
Theorem table_sizes :
  (∀ L : locale,
     length (days (table L)) = 7%nat ∧ length (months (table L)) = 12%nat) ∧
  (∀ (s : selector) (D0 : gset string),
     length (days (language_h s D0)) = 7%nat ∧
     length (months (language_h s D0)) = 12%nat).
Proof.
  split.
  - intros L. rewrite table_branch. by destruct L.
  - intros s D0. pattern (language_h s D0). by apply language_h_ind.
Qed.

(** C2: selecting locale FR makes the 'today' label the string
    "Aujourd'hui", selecting EN makes it "Today". *)
Theorem today_label :
  today_text (table FR) = "Aujourd'hui" ∧ today_text (table EN) = "Today".
Proof. by rewrite !table_branch. Qed.

(** C3 as stated fails: the label [crypto_text] is "Crypto" in both
    branches, so not every label changes with the locale. *)
Lemma crypto_text_shared :
  ¬ (∀ l : label, label_text l (table FR) ≠ label_text l (table EN)).
Proof. intros H. by apply (H Crypto). Qed.

(** C3, amended: switching the locale changes each of the labels but
    [crypto_text], which is "Crypto" in French and in English; and under
    any setting of the selector all the globals are those of one locale's
    table, so every string read comes from that one table. *)
Theorem labels_change_except_crypto :
  (∀ l : label, label_text l (table FR) = label_text l (table EN) ↔ l = Crypto) ∧
  label_text Crypto (table FR) = "Crypto" ∧
  (∀ (s : selector) (D0 : gset string),
     ∃ L : locale, language_h s D0 = table L ∧
       ∀ a : access, read a (language_h s D0) = read a (table L)).
Proof.
  split; [| split].
  - intros l. rewrite !table_branch. by destruct l.
  - by rewrite table_branch.
  - intros s D0. exists (active_locale s D0).
    by rewrite table_branch, language_h_branch.
Qed.

(** C4: for every locale, a weekday name looked up at an index 0-6 and a
    month name looked up at an index 0-11 is the string at that place of
    the locale's table, and the lookup does not reach the out-of-range
    outcome, which is that of the indices outside the range only. *)
Theorem lookup_in_range (L : locale) (d m : Z) :
  0 ≤ d < 7 → 0 ≤ m < 12 →
  (∃ s, read (Days d) (table L) = Some s ∧ days (table L) !! Z.to_nat d = Some s) ∧
  (∃ s, read (Months m) (table L) = Some s ∧ months (table L) !! Z.to_nat m = Some s) ∧
  (∀ i, read (Days i) (table L) = None ↔ ¬ 0 ≤ i < 7) ∧
  (∀ i, read (Months i) (table L) = None ↔ ¬ 0 ≤ i < 12).
Proof.
  intros Hd Hm. rewrite table_branch.
  assert (Hdays : length (days (branch L)) = 7%nat) by by destruct L.
  assert (Hmonths : length (months (branch L)) = 12%nat) by by destruct L.
  simpl. repeat split.
  - apply subscript_in_range. lia.
  - apply subscript_in_range. lia.
  - intros Hn Hi. assert (Hs : is_Some (subscript (days (branch L)) i))
      by (apply subscript_is_Some; lia).
    rewrite Hn in Hs. by destruct Hs.
  - intros Hi. apply subscript_out_of_range. lia.
  - intros Hn Hi. assert (Hs : is_Some (subscript (months (branch L)) i))
      by (apply subscript_is_Some; lia).
    rewrite Hn in Hs. by destruct Hs.
  - intros Hi. apply subscript_out_of_range. lia.
Qed.

(** The lookups of [days[3]] and [months[11]] in a French build. *)
Lemma lookup_in_range_wednesday_december :
  (0 ≤ 3 < 7 ∧ 0 ≤ 11 < 12) ∧
  (∃ s, read (Days 3) (table FR) = Some s ∧ days (table FR) !! Z.to_nat 3 = Some s) ∧
  (∃ s, read (Months 11) (table FR) = Some s ∧ months (table FR) !! Z.to_nat 11 = Some s) ∧
  (∀ i, read (Days i) (table FR) = None ↔ ¬ 0 ≤ i < 7) ∧
  (∀ i, read (Months i) (table FR) = None ↔ ¬ 0 ≤ i < 12).
Proof. split; [lia | apply (lookup_in_range FR 3 11); lia]. Defined.

(** C5 as stated fails: with both [#define] lines commented out and only
    an unknown tag defined, which selects neither FR nor EN, the header
    still gives globals, the English ones, and nothing is reported. *)
Lemma unknown_tag_gives_english :
  selected (selector_block {| fr_line := false; en_line := false |} {[ "LANGUAGE_DE" ]}) = None ∧
  language_h {| fr_line := false; en_line := false |} {[ "LANGUAGE_DE" ]} = english ∧
  read (Label Today) (language_h {| fr_line := false; en_line := false |} {[ "LANGUAGE_DE" ]})
    = Some "Today".
Proof. by vm_compute. Qed.

(** C5, amended: the header does not refuse what is no selection of a
    locale.  It tests [LANGUAGE_FR] alone, so when neither language macro
    is defined it gives the English globals, and when both are defined it
    gives the French ones. *)
Theorem unrecognized_selection_default (s : selector) (D0 : gset string) :
  selected (selector_block s D0) = None →
  (("LANGUAGE_FR" ∈ selector_block s D0) ∧ ("LANGUAGE_EN" ∈ selector_block s D0) ∧
   language_h s D0 = french) ∨
  (("LANGUAGE_FR" ∉ selector_block s D0) ∧ ("LANGUAGE_EN" ∉ selector_block s D0) ∧
   language_h s D0 = english).
Proof.
  unfold selected, language_h, conditional_block.
  destruct (ifdef "LANGUAGE_FR" (selector_block s D0)) eqn:Hfr,
    (ifdef "LANGUAGE_EN" (selector_block s D0)) eqn:Hen; intros Hsel; try done.
  - left. by rewrite <- !ifdef_true.
  - right. by rewrite <- !ifdef_false.
Qed.

(** Both [#define] lines commented out and nothing defined before. *)
Lemma unrecognized_selection_default_none :
  selected (selector_block {| fr_line := false; en_line := false |} ∅) = None ∧
  ((("LANGUAGE_FR" ∈ selector_block {| fr_line := false; en_line := false |} ∅) ∧
    ("LANGUAGE_EN" ∈ selector_block {| fr_line := false; en_line := false |} ∅) ∧
    language_h {| fr_line := false; en_line := false |} ∅ = french) ∨
   (("LANGUAGE_FR" ∉ selector_block {| fr_line := false; en_line := false |} ∅) ∧
    ("LANGUAGE_EN" ∉ selector_block {| fr_line := false; en_line := false |} ∅) ∧
    language_h {| fr_line := false; en_line := false |} ∅ = english)).
Proof.
  split; [reflexivity |].
  apply (unrecognized_selection_default {| fr_line := false; en_line := false |} ∅).
  reflexivity.
Defined.

(** C6: for every locale, weekday index 0 is the name of Sunday (FR
    "Dimanche", EN "Sunday") and month index 0 the name of January (FR
    "Janvier", EN "January"), and the names follow in calendar order up to
    index 6, Saturday, and index 11, December. *)
Theorem calendar_order :
  read (Days 0) (table FR) = Some "Dimanche" ∧
  read (Days 0) (table EN) = Some "Sunday" ∧
  read (Months 0) (table FR) = Some "Janvier" ∧
  read (Months 0) (table EN) = Some "January" ∧
  weekday_index Saturday = 6 ∧ month_index December = 11 ∧
  ∀ L : locale,
    (∀ d : weekday, read (Days (weekday_index d)) (table L) = Some (weekday_name L d)) ∧
    (∀ m : month, read (Months (month_index m)) (table L) = Some (month_name L m)).
Proof.
  rewrite !table_branch. repeat split; try done.
  - intros d. rewrite table_branch. by destruct L, d.
  - intros m. rewrite table_branch. by destruct L, m.
Qed.

(** C7: every string of each locale's table, the 7 weekday names, the 12
    month names and the 8 labels, is non-empty. *)
Theorem strings_nonempty :
  (∀ L : locale,
     length (strings (table L)) = 27%nat ∧
     Forall (λ s, s ≠ "" ∧ (0 < String.length s)%nat) (strings (table L))) ∧
  (∀ (s : selector) (D0 : gset string),
     Forall (λ s, s ≠ "" ∧ (0 < String.length s)%nat) (strings (language_h s D0))).
Proof.
  assert (HF : Forall (λ s, s ≠ "" ∧ (0 < String.length s)%nat) (strings french))
    by (repeat constructor; (done || (simpl; lia))).
  assert (HE : Forall (λ s, s ≠ "" ∧ (0 < String.length s)%nat) (strings english))
    by (repeat constructor; (done || (simpl; lia))).
  split.
  - intros L. rewrite table_branch. by destruct L.
  - intros s D0. pattern (language_h s D0). by apply language_h_ind.
Qed.

(** C10: as shipped, line 2 defines [LANGUAGE_FR] and line 3 is a comment,
    so French is the default: whatever was defined before the header, every
    string it exposes is the French one, for one [days[0]], which is
    "Dimanche", and [today_text], which is "Aujourd'hui". *)
Theorem shipped_is_french (D0 : gset string) :
  fr_line shipped = true ∧ en_line shipped = false ∧
  language_h shipped D0 = french ∧
  strings (language_h shipped D0) = strings (table FR) ∧
  read (Days 0) (language_h shipped D0) = Some "Dimanche" ∧
  today_text (language_h shipped D0) = "Aujourd'hui".
Proof.
  assert (H : language_h shipped D0 = french).
  { rewrite language_h_branch. unfold active_locale.
    by rewrite ifdef_FR_selector_block. }
  by rewrite H, table_branch.
Qed.

(** * Further properties of the header *)

(** ** Places of the strings *)

Lemma subscript_Some (a : list string) (i : Z) (str : string) :
  subscript a i = Some str →
  0 ≤ i < Z.of_nat (length a) ∧ a !! Z.to_nat i = Some str.
Proof.
  intros H. assert (Hi : is_Some (subscript a i)) by by exists str.
  apply subscript_is_Some in Hi. split; [done |].
  destruct (subscript_in_range a i Hi) as (s & Hs & Hl). congruence.
Qed.

Lemma label_place_lookup (l : label) (g : globals) :
  map (λ l, label_text l g) labels !! label_place l = Some (label_text l g).
Proof. by destruct l. Qed.

Lemma read_place (g : globals) (a : access) (str : string) :
  length (days g) = 7%nat → length (months g) = 12%nat →
  read a g = Some str → valid a ∧ strings g !! place a = Some str.
Proof.
  intros Hd Hm. unfold strings, place, read, valid. destruct a as [i | i | l].
  - intros [Hi Hs]%subscript_Some. rewrite Hd in Hi. split; [lia |].
    by apply lookup_app_l_Some.
  - intros [Hi Hs]%subscript_Some. rewrite Hm in Hi. split; [lia |].
    rewrite lookup_app_r by lia. rewrite Hd.
    replace (7 + Z.to_nat i - 7)%nat with (Z.to_nat i) by lia.
    by apply lookup_app_l_Some.
  - intros [= <-]. split; [done |].
    rewrite lookup_app_r by lia. rewrite Hd.
    rewrite lookup_app_r by lia. rewrite Hm.
    replace (19 + label_place l - 7 - 12)%nat with (label_place l) by lia.
    apply label_place_lookup.
Qed.

Lemma read_place_language_h s D0 a str :
  read a (language_h s D0) = Some str →
  valid a ∧ strings (language_h s D0) !! place a = Some str.
Proof.
  apply read_place; pattern (language_h s D0); by apply language_h_ind.
Qed.

Lemma label_place_inj (l l' : label) : label_place l = label_place l' → l = l'.
Proof. by destruct l, l'. Qed.

Lemma label_place_lt (l : label) : (label_place l < 8)%nat.
Proof. destruct l; simpl; lia. Qed.

Lemma place_inj (a b : access) : valid a → valid b → place a = place b → a = b.
Proof.
  pose proof label_place_lt as Hlt.
  destruct a as [i | i | l], b as [j | j | l']; simpl; intros Ha Hb Hp;
    try (specialize (Hlt l)); try (pose proof (Hlt l')); try lia.
  - f_equal. lia.
  - f_equal. lia.
  - f_equal. apply label_place_inj. lia.
Qed.

Lemma strings_NoDup s D0 : NoDup (strings (language_h s D0)).
Proof.
  pattern (language_h s D0). apply language_h_ind;
    apply (bool_decide_unpack _); by vm_compute.
Qed.

(** The strings the two branches have in common. *)
Lemma shared_strings (str : string) :
  str ∈ strings french → str ∈ strings english → str = "Crypto".
Proof.
  intros HF HE.
  assert (H : str ∈ filter (λ x, x ∈ strings english) (strings french))
    by by apply list_elem_of_filter.
  vm_compute in H. by apply list_elem_of_singleton in H.
Qed.

Lemma french_ascii_places (n : nat) (str : string) :
  strings french !! n = Some str →
  all_ascii str = false ↔ n = 8%nat ∨ n = 14%nat ∨ n = 18%nat.
Proof.
  do 27 (destruct n as [| n];
         [intros [= <-]; vm_compute; split; [intros; (done || lia) | intros; (done || lia)] |]).
  done.
Qed.

Lemma english_ascii (str : string) : str ∈ strings english → all_ascii str = true.
Proof.
  revert str. apply Forall_forall. apply (bool_decide_unpack _). by vm_compute.
Qed.

Lemma calendar_lengths s D0 :
  Forall (λ x, (String.length x ≤ 9)%nat) (days (language_h s D0)) ∧
  Forall (λ x, (String.length x ≤ 9)%nat) (months (language_h s D0)).
Proof.
  pattern (language_h s D0).
  apply language_h_ind; split; apply (bool_decide_unpack _); by vm_compute.
Qed.

(** ** What the selector does *)

(** X1: the header gives the French globals exactly when line 2 is active
    or [LANGUAGE_FR] was defined before it, and the English ones exactly
    when neither is the case.  Line 3 and every other macro have no effect:
    a build that differs in them only gives the same globals. *)
Theorem header_tests_LANGUAGE_FR_only (s : selector) (D0 : gset string) :
  (language_h s D0 = french ↔ fr_line s = true ∨ ("LANGUAGE_FR" ∈ D0)) ∧
  (language_h s D0 = english ↔ fr_line s = false ∧ ("LANGUAGE_FR" ∉ D0)) ∧
  (∀ (b : bool) (D1 : gset string),
     (("LANGUAGE_FR" ∈ D1) ↔ ("LANGUAGE_FR" ∈ D0)) →
     language_h {| fr_line := fr_line s; en_line := b |} D1 = language_h s D0).
Proof.
  assert (Hb : ∀ s D, active_locale s D = FR ↔ fr_line s = true ∨ ("LANGUAGE_FR" ∈ D)).
  { intros s' D. unfold active_locale. rewrite ifdef_FR_selector_block, <- ifdef_true.
    destruct (fr_line s'), (ifdef "LANGUAGE_FR" D); simpl; split; intros H; try done;
      auto; by destruct H. }
  split; [| split].
  - rewrite <- Hb, language_h_branch. by destruct (active_locale s D0).
  - rewrite language_h_branch. specialize (Hb s D0).
    destruct (active_locale s D0); simpl; split; intros H; try done.
    + destruct H as [Hl Hn]. destruct (proj1 Hb eq_refl) as [Ht | Hin]; [congruence | done].
    + split; [destruct (fr_line s); [| done] | intros Hin];
        by assert (EN = FR) by (apply Hb; auto).
  - intros b D1 HD. rewrite !language_h_branch. f_equal.
    pose proof (Hb {| fr_line := fr_line s; en_line := b |} D1) as H1.
    pose proof (Hb s D0) as H0. simpl in H1. rewrite HD in H1.
    destruct (active_locale _ D1), (active_locale s D0); try done.
    + symmetry. apply H0, H1. done.
    + apply H1, H0. done.
Qed.

(** X2: a selection of a locale is honoured.  When exactly one of
    [LANGUAGE_FR] and [LANGUAGE_EN] is defined at line 5, by the selector
    lines or from before the header, the globals are that locale's table. *)
Theorem selection_honoured (s : selector) (D0 : gset string) (L : locale) :
  selected (selector_block s D0) = Some L → language_h s D0 = table L.
Proof.
  intros H%selected_active_locale. by rewrite language_h_branch, table_branch, H.
Qed.

(** English asked for from outside, both selector lines commented out. *)
Lemma selection_honoured_english_flag :
  selected (selector_block {| fr_line := false; en_line := false |} {[ "LANGUAGE_EN" ]}) = Some EN ∧
  language_h {| fr_line := false; en_line := false |} {[ "LANGUAGE_EN" ]} = table EN.
Proof.
  split; [reflexivity |].
  apply (selection_honoured {| fr_line := false; en_line := false |} {[ "LANGUAGE_EN" ]} EN).
  reflexivity.
Defined.

(** ** The strings *)

(** X3: within one build no string is exposed twice.  Two different reads
    within the caller's contract, of a weekday name, a month name or a
    label, never give the same string. *)
Theorem distinct_reads_differ (s : selector) (D0 : gset string) (a b : access) :
  valid a → valid b → a ≠ b →
  read a (language_h s D0) ≠ read b (language_h s D0).
Proof.
  intros Ha Hb Hne Heq.
  destruct (read_valid a s D0 Ha) as [str Hra].
  assert (Hrb : read b (language_h s D0) = Some str) by congruence.
  apply read_place_language_h in Hra as [_ Hpa].
  apply read_place_language_h in Hrb as [_ Hpb].
  apply Hne, place_inj; [done | done |].
  exact (NoDup_lookup _ _ _ _ (strings_NoDup s D0) Hpa Hpb).
Qed.

(** [days[2]] against [months[2]] in the header as shipped, "Mardi" and "Mars". *)
Lemma distinct_reads_differ_mardi_mars :
  (valid (Days 2) ∧ valid (Months 2) ∧ Days 2 ≠ Months 2) ∧
  read (Days 2) (language_h shipped ∅) ≠ read (Months 2) (language_h shipped ∅).
Proof.
  assert (Hd : valid (Days 2)) by (simpl; lia).
  assert (Hm : valid (Months 2)) by (simpl; lia).
  assert (Hne : Days 2 ≠ Months 2) by discriminate.
  split; [done |].
  exact (distinct_reads_differ shipped ∅ (Days 2) (Months 2) Hd Hm Hne).
Defined.

(** X4: the two locales share one string only.  When two builds take
    different branches and a read in the one gives the same string as a
    read in the other, both are reads of [crypto_text] and the string is
    "Crypto": every weekday name, month name and other label changes with
    the locale. *)
Theorem only_crypto_shared
    (s1 s2 : selector) (D1 D2 : gset string) (a b : access) (str : string) :
  active_locale s1 D1 ≠ active_locale s2 D2 →
  read a (language_h s1 D1) = Some str →
  read b (language_h s2 D2) = Some str →
  a = Label Crypto ∧ b = Label Crypto ∧ str = "Crypto".
Proof.
  intros Hne Ha Hb.
  assert (Hc : ∀ s D, strings (language_h s D) !! place (Label Crypto) = Some "Crypto").
  { intros s D. pattern (language_h s D). by apply language_h_ind. }
  assert (Hid : ∀ s D c, read c (language_h s D) = Some "Crypto" → c = Label Crypto).
  { intros s D c [Hv Hp]%read_place_language_h. apply place_inj; [done | done |].
    exact (NoDup_lookup _ _ _ _ (strings_NoDup s D) Hp (Hc s D)). }
  assert (Hstr : str = "Crypto").
  { apply read_place_language_h in Ha as [_ Ha]. apply read_place_language_h in Hb as [_ Hb].
    apply list_elem_of_lookup_2 in Ha, Hb. rewrite language_h_branch in Ha, Hb.
    destruct (active_locale s1 D1), (active_locale s2 D2); try done;
      by apply shared_strings. }
  subst str. split; [by eapply Hid | split; [by eapply Hid | done]].
Qed.

(** The shipped header against an English build, both reading [crypto_text]. *)
Lemma only_crypto_shared_two_builds :
  (active_locale shipped ∅ ≠ active_locale (select EN) ∅ ∧
   read (Label Crypto) (language_h shipped ∅) = Some "Crypto" ∧
   read (Label Crypto) (language_h (select EN) ∅) = Some "Crypto") ∧
  Label Crypto = Label Crypto ∧ Label Crypto = Label Crypto ∧ "Crypto" = "Crypto".
Proof.
  assert (Hne : active_locale shipped ∅ ≠ active_locale (select EN) ∅)
    by (vm_compute; discriminate).
  split; [split; [exact Hne | split; reflexivity] |].
  exact (only_crypto_shared shipped (select EN) ∅ ∅ (Label Crypto) (Label Crypto)
           "Crypto" Hne eq_refl eq_refl).
Defined.

(** X5: the only strings with a byte outside 7-bit ASCII are three French
    month names, [months[1]], [months[7]] and [months[11]] ("Février",
    "Août", "Décembre", each with one two-byte letter).  Every English
    string, and every French weekday name and label, is plain ASCII. *)
Theorem non_ascii_french_months
    (s : selector) (D0 : gset string) (a : access) (str : string) :
  read a (language_h s D0) = Some str →
  (all_ascii str = false ↔
     active_locale s D0 = FR ∧ (a = Months 1 ∨ a = Months 7 ∨ a = Months 11)).
Proof.
  intros [Hv Hp]%read_place_language_h. rewrite language_h_branch in Hp.
  destruct (active_locale s D0); simpl in Hp.
  - rewrite (french_ascii_places _ _ Hp). split.
    + intros Hn. split; [done |].
      destruct Hn as [Hn | [Hn | Hn]];
        [left | right; left | right; right]; by apply place_inj; [| simpl; lia |].
    + by intros [_ [-> | [-> | ->]]]; vm_compute; auto.
  - apply list_elem_of_lookup_2, english_ascii in Hp. rewrite Hp.
    split; [done | by intros [? _]].
Qed.

(** [months[7]] of the header as shipped, "Août" with its two-byte letter. *)
Lemma non_ascii_french_months_aout :
  read (Months 7) (language_h shipped ∅) = Some "Août" ∧
  (all_ascii "Août" = false ↔
     active_locale shipped ∅ = FR ∧
     (Months 7 = Months 1 ∨ Months 7 = Months 7 ∨ Months 7 = Months 11)).
Proof.
  split; [reflexivity |].
  apply (non_ascii_french_months shipped ∅ (Months 7) "Août"). reflexivity.
Defined.

(** X6: in every build a weekday or month name takes at most 9 bytes and a
    label at most 23, the terminating zero not counted. *)
Theorem string_lengths
    (s : selector) (D0 : gset string) (a : access) (str : string) :
  read a (language_h s D0) = Some str →
  (String.length str ≤ match a with Label _ => 23 | _ => 9 end)%nat.
Proof.
  destruct (calendar_lengths s D0) as [Hd Hm]. destruct a as [i | i | l]; simpl.
  - intros [_ Hs]%subscript_Some. exact (Forall_lookup_1 _ _ _ _ Hd Hs).
  - intros [_ Hs]%subscript_Some. exact (Forall_lookup_1 _ _ _ _ Hm Hs).
  - intros [= <-]. pattern (language_h s D0).
    apply language_h_ind; destruct l; simpl; lia.
Qed.

(** The longest label, [ha_sensor_text] of the header as shipped. *)
Lemma string_lengths_ha_sensor :
  read (Label HaSensor) (language_h shipped ∅) = Some "Capteurs Home Assistant" ∧
  (String.length "Capteurs Home Assistant" ≤ 23)%nat.
Proof.
  split; [reflexivity |].
  apply (string_lengths shipped ∅ (Label HaSensor) "Capteurs Home Assistant").
  reflexivity.
Defined.

(** ** The declarations *)

(** X7: the two branches declare the same interface.  Whatever the
    selection, the header declares the same ten identifiers, in the same
    order and each once, [days] and [months] as arrays and the other eight
    as single strings; and the ten identifiers resolve to the globals of
    the branch taken. *)
Theorem declarations_agree (s : selector) (D0 : gset string) :
  map (λ d, (decl_name d, decl_shape d)) (language_h_decls s D0)
    = [ ("days", ArrayOfStrings); ("months", ArrayOfStrings);
        ("today_text", OneString); ("forecast_text", OneString);
        ("ha_sensor_text", OneString); ("crypto_text", OneString);
        ("battery_text", OneString); ("indoor_text", OneString);
        ("outdoor_text", OneString); ("other_text", OneString) ] ∧
  NoDup (map decl_name (language_h_decls s D0)) ∧
  resolve (language_h_decls s D0) = Some (language_h s D0).
Proof.
  unfold language_h_decls, conditional_decls, language_h, conditional_block.
  destruct (ifdef "LANGUAGE_FR" (selector_block s D0));
    (split; [done | split; [apply (bool_decide_unpack _); by vm_compute | done]]).
Qed.

(** * Reads and assignments by a client *)

(** ** One store *)

Lemma store_Some (a : list string) (i : Z) (p : string) (a' : list string) :
  store a i p = Some a' →
  0 ≤ i < Z.of_nat (length a) ∧ a' = <[Z.to_nat i := p]> a.
Proof.
  unfold store. case_bool_decide; [| done]. by intros [= <-].
Qed.

Lemma store_in_range (a : list string) (i : Z) (p : string) :
  0 ≤ i < Z.of_nat (length a) → store a i p = Some (<[Z.to_nat i := p]> a).
Proof. intros Hi. unfold store. by rewrite bool_decide_eq_true_2. Qed.

Lemma subscript_insert_same (a : list string) (i : Z) (p : string) :
  0 ≤ i < Z.of_nat (length a) → subscript (<[Z.to_nat i := p]> a) i = Some p.
Proof.
  intros Hi. unfold subscript. rewrite length_insert, bool_decide_eq_true_2 by done.
  apply list_lookup_insert_eq. lia.
Qed.

Lemma subscript_insert_other (a : list string) (i j : Z) (p : string) :
  i ≠ j → 0 ≤ j → subscript (<[Z.to_nat j := p]> a) i = subscript a i.
Proof.
  intros Hne Hj. unfold subscript. rewrite length_insert.
  case_bool_decide; [| done]. apply list_lookup_insert_ne. lia.
Qed.

(** ** One assignment *)

Lemma sized_language_h s D0 : sized (language_h s D0).
Proof. pattern (language_h s D0). by apply language_h_ind. Qed.

Lemma read_sized (g : globals) (a : access) :
  sized g → valid a → is_Some (read a g).
Proof.
  intros [Hd Hm] Hv. destruct a as [i | i | l]; simpl in *.
  - apply subscript_is_Some. lia.
  - apply subscript_is_Some. lia.
  - by eexists.
Qed.

Lemma assign_sized (g : globals) (a : access) (p : string) :
  sized g → valid a → ∃ g', assign a p g = Some g' ∧ sized g'.
Proof.
  intros [Hd Hm] Hv. destruct a as [i | i | l]; simpl in *.
  - rewrite store_in_range by lia. simpl. eexists. split; [done |].
    split; simpl; [by rewrite length_insert | done].
  - rewrite store_in_range by lia. simpl. eexists. split; [done |].
    split; simpl; [done | by rewrite length_insert].
  - eexists. split; [done |]. by split.
Qed.

(** The pointer assigned holds the new string. *)
Lemma read_assign_same (g g' : globals) (a : access) (p : string) :
  assign a p g = Some g' → read a g' = Some p.
Proof.
  destruct a as [i | i | l]; simpl.
  - destruct (store (days g) i p) as [d |] eqn:Hs; simpl; [| done].
    intros [= <-]. apply store_Some in Hs as [Hi ->]. simpl.
    by apply subscript_insert_same.
  - destruct (store (months g) i p) as [m |] eqn:Hs; simpl; [| done].
    intros [= <-]. apply store_Some in Hs as [Hi ->]. simpl.
    by apply subscript_insert_same.
  - intros [= <-]. by destruct l.
Qed.

(** Every other pointer holds what it held. *)
Lemma read_assign_other (g g' : globals) (a b : access) (p : string) :
  assign b p g = Some g' → a ≠ b → read a g' = read a g.
Proof.
  destruct b as [j | j | l]; simpl.
  - destruct (store (days g) j p) as [d |] eqn:Hs; simpl; [| done].
    intros [= <-] Hne. apply store_Some in Hs as [Hj ->].
    destruct a as [i | i | l']; simpl; [| done | by destruct l'].
    apply subscript_insert_other; [congruence | lia].
  - destruct (store (months g) j p) as [m |] eqn:Hs; simpl; [| done].
    intros [= <-] Hne. apply store_Some in Hs as [Hj ->].
    destruct a as [i | i | l']; simpl; [done | | by destruct l'].
    apply subscript_insert_other; [congruence | lia].
  - intros [= <-] Hne. destruct a as [i | i | l']; simpl; [done | done |].
    f_equal. assert (Hl : l' ≠ l) by congruence.
    destruct l'; simpl; by rewrite bool_decide_eq_false_2.
Qed.

(** ** Programs *)

Lemma untouched_cons (a : access) (st : stmt) (prog : list stmt) :
  untouched a (st :: prog) → untouched a prog ∧ ∀ p, st ≠ Assign a p.
Proof.
  intros H. split.
  - intros p Hin. apply (H p). by right.
  - intros p ->. apply (H p). by left.
Qed.

Lemma untouched_app (a : access) (xs ys : list stmt) :
  untouched a (xs ++ ys) → untouched a xs ∧ untouched a ys.
Proof.
  intros H. split; intros p Hin; apply (H p), elem_of_app; auto.
Qed.

Lemma execute_app (xs ys : list stmt) : ∀ g,
  execute (xs ++ ys) g =
    '(g1, out1) ← execute xs g; '(g2, out2) ← execute ys g1; Some (g2, (out1 ++ out2)%list).
Proof.
  induction xs as [| [a | a p] xs IH]; intros g; simpl.
  - by destruct (execute ys g) as [[g2 out2] |].
  - destruct (read a g) as [s |]; simpl; [| done]. rewrite IH.
    destruct (execute xs g) as [[g1 out1] |]; simpl; [| done].
    by destruct (execute ys g1) as [[g2 out2] |].
  - destruct (assign a p g) as [g1 |]; simpl; [apply IH | done].
Qed.

(** A program of reads only gives back the globals it was given. *)
Lemma execute_reads_only (prog : list stmt) : ∀ g g' out,
  (∀ a, untouched a prog) → execute prog g = Some (g', out) → g' = g.
Proof.
  induction prog as [| [a | a p] rest IH]; intros g g' out Hu; simpl.
  - by intros [= <- _].
  - destruct (read a g) as [s |]; simpl; [| done].
    destruct (execute rest g) as [[g1 out1] |] eqn:He; simpl; [| done].
    intros [= <- _]. eapply IH; [| done].
    intros b. by apply (untouched_cons b (Read a)).
  - destruct (Hu a p). by left.
Qed.

(** A program within the caller's contract runs to its end; it keeps the
    sizes of the arrays and the value of every pointer it does not assign,
    and when it assigns nothing every string it reads is one of the
    globals it was given. *)
Lemma execute_frame (prog : list stmt) : ∀ g,
  sized g → in_contract prog →
  ∃ g' out,
    execute prog g = Some (g', out) ∧ sized g' ∧
    (∀ a, untouched a prog → read a g' = read a g) ∧
    ((∀ a, untouched a prog) → g' = g ∧ Forall (λ str, str ∈ strings g) out).
Proof.
  induction prog as [| [a | a p] rest IH]; intros g Hs Hc.
  - exists g, []. split; [done |]. split; [done |]. split; [done |].
    intros _. split; [done | constructor].
  - apply Forall_cons in Hc as [Hv Hc]. simpl in Hv.
    destruct (read_sized g a Hs Hv) as [s Hr].
    destruct (IH g Hs Hc) as (g' & out & He & Hs' & Hframe & Hsame).
    exists g', (s :: out). simpl. rewrite Hr, He. simpl.
    split; [done |]. split; [done |]. split.
    + intros b Hb. apply Hframe. by apply (untouched_cons b (Read a)).
    + intros Hu. destruct Hsame as [-> Hout].
      { intros b. by apply (untouched_cons b (Read a)). }
      split; [done |]. apply Forall_cons. split; [| done].
      destruct Hs as [Hd Hm].
      destruct (read_place g a s Hd Hm Hr) as [_ Hp].
      by eapply list_elem_of_lookup_2.
  - apply Forall_cons in Hc as [Hv Hc]. simpl in Hv.
    destruct (assign_sized g a p Hs Hv) as (g1 & Ha & Hs1).
    destruct (IH g1 Hs1 Hc) as (g' & out & He & Hs' & Hframe & _).
    exists g', out. simpl. rewrite Ha. simpl.
    split; [done |]. split; [done |]. split.
    + intros b Hb. apply untouched_cons in Hb as [Hb Hne].
      rewrite (Hframe b Hb). eapply read_assign_other; [done |].
      intros ->. by apply (Hne p).
    + intros Hu. destruct (Hu a p). by left.
Qed.

(** With the pointers as declared, every program is accepted. *)
Lemma client_declared (prog : list stmt) (g : globals) :
  client declared prog g = execute prog g.
Proof.
  unfold client. replace (forallb (accepted declared) prog) with true; [done |].
  symmetry. apply forallb_forall. by intros [a | a p] _.
Qed.

(** With const-qualified pointers, an accepted program assigns nothing. *)
Lemma accepted_const_pointer (t : declarator) (prog : list stmt) :
  const_pointer t = true → forallb (accepted t) prog = true → ∀ a, untouched a prog.
Proof.
  intros Ht Hacc a p Hin. rewrite forallb_forall in Hacc.
  apply list_elem_of_In, Hacc in Hin. simpl in Hin. by rewrite Ht in Hin.
Qed.

(** ** The claims on immutability and repeated lookups *)

(** C8 as stated fails: the pointers are declared [const char *], not
    [const char *const], so a client may assign to them.  On the header as
    shipped, [days[0] = months[0]; today_text = "Today";] is accepted and
    leaves globals that are no locale's table: the English 'today' label
    beside the French 'forecast' label. *)
Lemma client_assignment_blends :
  ∃ g : globals,
    client declared [Assign (Days 0) "Janvier"; Assign (Label Today) "Today"]
      (language_h shipped ∅) = Some (g, []) ∧
    g ≠ language_h shipped ∅ ∧ (∀ L : locale, g ≠ table L) ∧
    today_text g = today_text (table EN) ∧
    forecast_text g = forecast_text (table FR).
Proof.
  eexists. split; [by vm_compute |].
  split; [by vm_compute |]. split; [| by vm_compute].
  intros L. destruct L; by vm_compute.
Qed.

(** C8, amended: under every setting of the selector the header declares
    the table of exactly one locale, FR and EN being alternatives fixed at
    preprocessing, and reads never change it: a client program that
    assigns nothing ends with that table and reads only strings of it.
    The table is not immutable, for the pointers are not const-qualified:
    every program within the caller's contract is accepted and runs, and
    an assignment changes the pointer assigned and nothing else, so the
    arrays keep their sizes and every pointer the program does not assign
    still holds the string of the selected table.  Had the pointers been
    const-qualified, no accepted program could change the table. *)
Theorem one_table_until_assigned
    (s : selector) (D0 : gset string) (prog : list stmt) :
  in_contract prog →
  ∃ L : locale,
    (∀ L' : locale, language_h s D0 = table L' ↔ L' = L) ∧
    (∃ (g : globals) (out : list string),
       client declared prog (language_h s D0) = Some (g, out) ∧
       sized g ∧
       (∀ a, valid a → untouched a prog →
          is_Some (read a g) ∧ read a g = strings (table L) !! place a) ∧
       ((∀ a, untouched a prog) →
          g = table L ∧ Forall (λ str, str ∈ strings (table L)) out)) ∧
    (∀ (t : declarator) (g : globals) (out : list string),
       const_pointer t = true →
       client t prog (language_h s D0) = Some (g, out) → g = table L).
Proof.
  intros Hc. exists (active_locale s D0).
  assert (HL : language_h s D0 = table (active_locale s D0))
    by by rewrite table_branch, language_h_branch.
  split; [| split].
  - intros L'. rewrite table_branch, language_h_branch.
    destruct (active_locale s D0), L'; split; (done || discriminate).
  - destruct (execute_frame prog _ (sized_language_h s D0) Hc)
      as (g & out & He & Hs & Hframe & Hsame).
    exists g, out. rewrite client_declared, <- HL.
    split; [done |]. split; [done |]. split; [| done].
    intros a Hv Hu. rewrite (Hframe a Hu).
    destruct (read_valid a s D0 Hv) as [str Hr].
    destruct (read_place_language_h _ _ _ _ Hr) as [_ Hp].
    rewrite Hr, Hp. split; [by eexists | done].
  - intros t g out Ht. unfold client.
    destruct (forallb (accepted t) prog) eqn:Hacc; [| done].
    intros He. rewrite <- HL.
    eapply execute_reads_only; [| done]. by apply accepted_const_pointer with t.
Qed.

(** A read, an assignment to [today_text] and a read of it, on the header
    as shipped. *)
Lemma one_table_until_assigned_shipped :
  in_contract [Read (Days 0); Assign (Label Today) "Today"; Read (Label Today)] ∧
  ∃ L : locale,
    (∀ L' : locale, language_h shipped ∅ = table L' ↔ L' = L) ∧
    (∃ (g : globals) (out : list string),
       client declared [Read (Days 0); Assign (Label Today) "Today"; Read (Label Today)]
         (language_h shipped ∅) = Some (g, out) ∧
       sized g ∧
       (∀ a, valid a →
          untouched a [Read (Days 0); Assign (Label Today) "Today"; Read (Label Today)] →
          is_Some (read a g) ∧ read a g = strings (table L) !! place a) ∧
       ((∀ a, untouched a [Read (Days 0); Assign (Label Today) "Today"; Read (Label Today)]) →
          g = table L ∧ Forall (λ str, str ∈ strings (table L)) out)) ∧
    (∀ (t : declarator) (g : globals) (out : list string),
       const_pointer t = true →
       client t [Read (Days 0); Assign (Label Today) "Today"; Read (Label Today)]
         (language_h shipped ∅) = Some (g, out) → g = table L).
Proof.
  assert (Hc : in_contract [Read (Days 0); Assign (Label Today) "Today"; Read (Label Today)])
    by (repeat constructor; simpl; lia).
  split; [exact Hc | exact (one_table_until_assigned shipped ∅ _ Hc)].
Defined.

(** C9 as stated fails: in a French build, [days[0]] looked up before and
    after the accepted assignment [days[0] = "Lundi";] gives "Dimanche"
    and then "Lundi", two lookups of the same index under the same locale
    with different results. *)
Lemma assignment_between_lookups :
  snd <$> client declared [Read (Days 0); Assign (Days 0) "Lundi"; Read (Days 0)] (table FR)
    = Some ["Dimanche"; "Lundi"] ∧
  "Dimanche" ≠ "Lundi".
Proof. split; by vm_compute. Qed.

(** C9, amended: a lookup changes nothing, and two lookups of the same
    valid index under the same locale return the identical string as long
    as the client assigns nothing to that pointer between them, whatever
    else it reads or assigns there.  That string is the entry of the
    locale's table when nothing was assigned to the pointer before either,
    and the string assigned when the statement just before the first
    lookup assigns to it: the declarations allow such an assignment. *)
Theorem lookup_repeatable
    (s : selector) (D0 : gset string) (pre mid : list stmt) (a : access) :
  in_contract (pre ++ mid) → valid a → untouched a mid →
  ∃ (g1 : globals) (out1 : list string) (g2 : globals) (out2 : list string)
    (str : string),
    execute pre (language_h s D0) = Some (g1, out1) ∧
    execute mid g1 = Some (g2, out2) ∧
    client declared (pre ++ Read a :: mid ++ [Read a]) (language_h s D0)
      = Some (g2, (out1 ++ str :: out2 ++ [str])%list) ∧
    (untouched a pre → strings (language_h s D0) !! place a = Some str) ∧
    (∀ (pre' : list stmt) (p : string), pre = (pre' ++ [Assign a p])%list → str = p).
Proof.
  intros [Hpre Hmid]%Forall_app Hv Hu.
  destruct (execute_frame pre _ (sized_language_h s D0) Hpre)
    as (g1 & out1 & He1 & Hs1 & Hf1 & _).
  destruct (read_sized g1 a Hs1 Hv) as [str Hr1].
  destruct (execute_frame mid g1 Hs1 Hmid) as (g2 & out2 & He2 & Hs2 & Hf2 & _).
  assert (Hr2 : read a g2 = Some str) by by rewrite (Hf2 a Hu).
  exists g1, out1, g2, out2, str.
  split; [done |]. split; [done |]. split; [| split].
  - rewrite client_declared, execute_app, He1. simpl. rewrite Hr1. simpl.
    rewrite execute_app, He2. simpl. by rewrite Hr2.
  - intros Hup. rewrite (Hf1 a Hup) in Hr1.
    by destruct (read_place_language_h _ _ _ _ Hr1).
  - intros pre' p ->. rewrite execute_app in He1.
    destruct (execute pre' (language_h s D0)) as [[gx ox] |]; simpl in He1; [| done].
    destruct (assign a p gx) as [gy |] eqn:Ha; simpl in He1; [| done].
    injection He1 as <- _. apply read_assign_same in Ha. congruence.
Qed.

(** [days[0]] looked up twice on the header as shipped, after
    [days[0] = "Lundi";] and with a read and another assignment between. *)
Lemma lookup_repeatable_shipped :
  (in_contract ([Assign (Days 0) "Lundi"] ++ [Read (Months 3); Assign (Label Today) "Today"]) ∧
   valid (Days 0) ∧
   untouched (Days 0) [Read (Months 3); Assign (Label Today) "Today"]) ∧
  ∃ (g1 : globals) (out1 : list string) (g2 : globals) (out2 : list string)
    (str : string),
    execute [Assign (Days 0) "Lundi"] (language_h shipped ∅) = Some (g1, out1) ∧
    execute [Read (Months 3); Assign (Label Today) "Today"] g1 = Some (g2, out2) ∧
    client declared
      ([Assign (Days 0) "Lundi"]
         ++ Read (Days 0) :: [Read (Months 3); Assign (Label Today) "Today"]
         ++ [Read (Days 0)])
      (language_h shipped ∅)
      = Some (g2, (out1 ++ str :: out2 ++ [str])%list) ∧
    (untouched (Days 0) [Assign (Days 0) "Lundi"] →
       strings (language_h shipped ∅) !! place (Days 0) = Some str) ∧
    (∀ (pre' : list stmt) (p : string),
       [Assign (Days 0) "Lundi"] = (pre' ++ [Assign (Days 0) p])%list → str = p).
Proof.
  assert (Hc : in_contract ([Assign (Days 0) "Lundi"]
                              ++ [Read (Months 3); Assign (Label Today) "Today"]))
    by (repeat constructor; simpl; lia).
  assert (Hv : valid (Days 0)) by (simpl; lia).
  assert (Hu : untouched (Days 0) [Read (Months 3); Assign (Label Today) "Today"]).
  { intros p Hin. repeat (apply elem_of_cons in Hin as [Hin | Hin]; [discriminate |]).
    by apply elem_of_nil in Hin. }
  split; [done |].
  exact (lookup_repeatable shipped ∅ [Assign (Days 0) "Lundi"]
           [Read (Months 3); Assign (Label Today) "Today"] (Days 0) Hc Hv Hu).
Defined.
